(** * tclperformance: the [xor] command of the Tcl extension

    A shallow embedding of [Tcl_xor_cmd] and the properties the
    specification states about it.  The function is the same in
    generic/performance.c and in the earlier copies of performance.c, up to
    the integer type of its lengths and counters ([Tcl_Size] or [int]).

    Conventions of the embedding.
    - [unsigned char] is [byte]; [a ^ b] on two of them (promotion to [int],
      exclusive or, conversion back on the store) is coqutil's [byte.xor].
    - [Tcl_Size] / [int] values are [Z].  Both lengths are values of that
      type handed out by Tcl, and an increment of [ti] or [si] in a pass that
      completes gives at most the length of the text or of the key
      ([xor_body_counters]), so no counter leaves the range of its type.
    - A buffer is a [list byte]; an access outside of it has no defined
      behaviour in C and ends the run with [Undefined].
    - The command runs in a [world]: the interpreter's result, the
      indeterminate content of freshly allocated memory, and the trace of the
      memory operations of the command: its allocation and release, the
      reads and writes of its loop, and the reads by which
      [Tcl_NewByteArrayObj] copies the result buffer.  The allocation is
      taken to succeed. *)

From Stdlib Require Import ZArith Lia List String.
From stdpp Require Import base list.
From coqutil Require Import Byte.
Import ListNotations.
Local Open Scope Z_scope.

(** ** Outcomes and the monad of the command *)

Inductive outcome (A : Type) : Type :=
| Done (a : A)        (* the code ran to this point *)
| Undefined           (* an access outside a buffer *)
| OutOfFuel.          (* the model's loop budget was too small *)
Arguments Done {A} a.
Arguments Undefined {A}.
Arguments OutOfFuel {A}.

Inductive buffer : Type := Text | Salt | Result.

Inductive event : Type :=
| Malloc (size : Z)
| Free
| Load (buf : buffer) (i : Z)
| Store (buf : buffer) (i : Z) (b : byte).

(** What the interpreter holds as its result: a string (error messages are
    appended to it) or an object; the only objects this command makes are
    byte arrays. *)
Inductive Tcl_value : Type :=
| StringResult (s : string)
| ByteArrayObj (bytes : list byte).

Record world : Type := mkWorld {
  interp_result : Tcl_value;   (* the result held by the interpreter *)
  fresh : nat -> byte;         (* what a new allocation holds, byte by byte *)
  trace : list event           (* memory operations so far, oldest first *)
}.

Definition M (A : Type) : Type := world -> outcome (A * world).

#[global] Instance M_ret : MRet M := fun A a w => Done (a, w).

#[global] Instance M_bind : MBind M := fun A B k m w =>
  match m w with
  | Done (a, w') => k a w'
  | Undefined => Undefined
  | OutOfFuel => OutOfFuel
  end.

Definition undefined {A} : M A := fun _ => Undefined.
Definition out_of_fuel {A} : M A := fun _ => OutOfFuel.

(** The world after the memory operations [evs]. *)
Definition log (w : world) (evs : list event) : world :=
  mkWorld (interp_result w) (fresh w) (trace w ++ evs).

Definition emit (e : event) : M unit := fun w => Done (tt, log w [e]).

(** ** The part of the Tcl C API the command calls *)

Inductive code : Type := TCL_OK | TCL_ERROR.

(** A command argument.  Every argument is taken as a byte array, which is
    how [Tcl_GetByteArrayFromObj] reads it. *)
Abbreviation Tcl_Obj := (list byte).

Definition Tcl_ResetResult : M unit :=
  fun w => Done (tt, mkWorld (StringResult EmptyString) (fresh w) (trace w)).

Definition string_rep (v : Tcl_value) : string :=
  match v with
  | StringResult s => s
  | ByteArrayObj bytes => string_of_list_byte bytes
  end.

(** [Tcl_AppendResult(interp, msg, NULL)] appends [msg] to the result read
    as a string. *)
Definition Tcl_AppendResult (msg : string) : M unit :=
  fun w =>
    Done (tt, mkWorld (StringResult (string_rep (interp_result w) ++ msg))
                      (fresh w) (trace w)).

Definition Tcl_SetObjResult (obj : Tcl_value) : M unit :=
  fun w => Done (tt, mkWorld obj (fresh w) (trace w)).

(** [Tcl_GetByteArrayFromObj(objv[i], &len)]: the bytes and their count. *)
Definition Tcl_GetByteArrayFromObj (objv : list Tcl_Obj) (i : nat)
  : M (list byte * Z) :=
  match objv !! i with
  | Some obj => mret (obj, Z.of_nat (length obj))
  | None => undefined
  end.

(** ** Memory *)

(** [malloc(size)]: [size] bytes of indeterminate content.  The allocation
    is taken to succeed. *)
Definition malloc (size : Z) : M (list byte) :=
  fun w =>
    Done (map (fresh w) (seq 0 (Z.to_nat size)), log w [Malloc size]).

Definition free : M unit := emit Free.

Definition load (name : buffer) (buf : list byte) (i : Z) : M byte :=
  if (0 <=? i) && (i <? Z.of_nat (length buf)) then
    match buf !! Z.to_nat i with
    | Some b => emit (Load name i) ;; mret b
    | None => undefined
    end
  else undefined.

Definition store (name : buffer) (buf : list byte) (i : Z) (b : byte)
  : M (list byte) :=
  if (0 <=? i) && (i <? Z.of_nat (length buf)) then
    emit (Store name i b) ;; mret (<[Z.to_nat i := b]> buf)
  else undefined.

(** The [n] bytes of [buf] from position [i] on, read one after the
    other. *)
Fixpoint copy_out (name : buffer) (buf : list byte) (i : Z) (n : nat)
  : M (list byte) :=
  match n with
  | O => mret []
  | S n' =>
      b ← load name buf i ;
      rest ← copy_out name buf (i + 1) n' ;
      mret (b :: rest)
  end.

(** [Tcl_NewByteArrayObj(bytes, length)]: a new byte array object holding a
    copy of the [length] bytes at [bytes].  The command passes its result
    buffer, which the copy reads. *)
Definition Tcl_NewByteArrayObj (bytes : list byte) (len : Z) : M Tcl_value :=
  copied ← copy_out Result bytes 0 (Z.to_nat len) ;
  mret (ByteArrayObj copied).

(** ** The command *)

(** The variables the loop changes. *)
Record loop_state : Type := mkLoop {
  ti : Z;
  si : Z;
  result : list byte
}.

(** One pass through the body of the loop:
<<
        result[ti] = text[ti] ^ salt[si++];
        if (si >= saltLen) si = 0;
>>
    The two operands are read (C leaves their order open; the text byte is
    taken first here), [si] is incremented, the exclusive or is stored, and
    [si] is reset when it has reached [saltLen]. *)
Definition xor_body (text salt : list byte) (saltLen : Z) (st : loop_state)
  : M loop_state :=
  t ← load Text text (ti st) ;
  s ← load Salt salt (si st) ;
  let si' := si st + 1 in
  result' ← store Result (result st) (ti st) (byte.xor t s) ;
  mret (mkLoop (ti st) (if si' >=? saltLen then 0 else si') result').

(** [for (...; ti < textLen; ti++) body], entered in the state [st].  Each
    pass uses one unit of [fuel]. *)
Fixpoint xor_loop (fuel : nat) (text salt : list byte) (textLen saltLen : Z)
  (st : loop_state) : M loop_state :=
  if ti st <? textLen then
    match fuel with
    | O => out_of_fuel
    | S fuel' =>
        st' ← xor_body text salt saltLen st ;
        xor_loop fuel' text salt textLen saltLen
          (mkLoop (ti st' + 1) (si st') (result st'))
    end
  else mret st.

Definition usage : string :=
  "Invalid command count, use: xor <string> <salt>".

Definition Tcl_xor_cmd (objc : Z) (objv : list Tcl_Obj) : M code :=
  Tcl_ResetResult ;;
  if negb (objc =? 3) then
    Tcl_AppendResult usage ;;
    mret TCL_ERROR
  else
    '(text, textLen) ← Tcl_GetByteArrayFromObj objv 1 ;
    '(salt, saltLen) ← Tcl_GetByteArrayFromObj objv 2 ;
    result0 ← malloc textLen ;
    st ← xor_loop (Z.to_nat textLen) text salt textLen saltLen
           (mkLoop 0 0 result0) ;
    obj ← Tcl_NewByteArrayObj (result st) textLen ;
    Tcl_SetObjResult obj ;;
    free ;;
    mret TCL_OK.

(** Tcl calls a command with [objc] the number of words in [objv], the
    command's own name first. *)
Definition invoke (objv : list Tcl_Obj) : M code :=
  Tcl_xor_cmd (Z.of_nat (length objv)) objv.

Definition xor_name : Tcl_Obj := list_byte_of_string "xor".

(** What a script gets back from [xor data key]: the byte array left as the
    interpreter's result when the command returns [TCL_OK]. *)
Definition transform (w : world) (data key : list byte) : option (list byte) :=
  match invoke [xor_name; data; key] w with
  | Done (TCL_OK, w') =>
      match interp_result w' with
      | ByteArrayObj bytes => Some bytes
      | StringResult _ => None
      end
  | _ => None
  end.

(** What a caller can see of a run: the return code and the interpreter's
    result. *)
Definition verdict (o : outcome (code * world)) : outcome (code * Tcl_value) :=
  match o with
  | Done (c, w') => Done (c, interp_result w')
  | Undefined => Undefined
  | OutOfFuel => OutOfFuel
  end.

(** ** The reference definition

    The specification's wording: [result[i] = data[i] XOR key[i mod K]],
    the key position recomputed from [i] for every byte. *)

Definition key_at (key : list byte) (i : nat) : byte :=
  default Byte.x00 (key !! (i mod length key)%nat).

Definition transform_reference (data key : list byte) : list byte :=
  imap (fun i d => byte.xor d (key_at key i)) data.

(** The memory operations of the loop on [rest], the bytes of the text from
    position [i] on. *)
Definition loop_events (key : list byte) (i : nat) (rest : list byte)
  : list event :=
  concat (imap (fun j d =>
                  [Load Text (Z.of_nat (i + j));
                   Load Salt (Z.of_nat ((i + j) mod length key));
                   Store Result (Z.of_nat (i + j)) (byte.xor d (key_at key (i + j)))])
               rest).

(** The reads of the copy of [n] bytes out of the result buffer. *)
Definition copy_events (n : nat) : list event :=
  map (fun i => Load Result (Z.of_nat i)) (seq 0 n).

Definition cmd_events (data key : list byte) : list event :=
  Malloc (Z.of_nat (length data))
  :: loop_events key 0 data ++ copy_events (length data) ++ [Free].

(** The bytes the loop writes for [rest], the text from position [i] on. *)
Definition xor_from (key : list byte) (i : nat) (rest : list byte) : list byte :=
  imap (fun j d => byte.xor d (key_at key (i + j))) rest.

(** Sample inputs: a world whose interpreter still holds an earlier result
    and whose fresh memory is not zeroed, and the 256-byte buffer
    0x00, 0x01, ..., 0xFF. *)
Definition sample_world : world :=
  mkWorld (StringResult "earlier result") (fun _ => Byte.xff) [Free].

Definition all_bytes : list byte := map byte.of_Z (seqZ 0 256).

(** ** Definitions for further properties of the command *)

(** The key [key] written out [n] times in a row. *)
Definition tiled (n : nat) (key : list byte) : list byte :=
  concat (replicate n key).

(** The memory operations a run may make for a text of [textLen] bytes and
    a key of [saltLen] bytes: reads of the text and of the key inside them,
    writes to and reads of the result buffer inside it, the allocation of
    [textLen] bytes and its release; no write to the text or to the key. *)
Definition access_ok (textLen saltLen : Z) (e : event) : Prop :=
  match e with
  | Malloc size => size = textLen
  | Free => True
  | Load Text i => 0 <= i < textLen
  | Load Salt i => 0 <= i < saltLen
  | Load Result i => 0 <= i < textLen
  | Store Result i _ => 0 <= i < textLen
  | Store Text _ _ | Store Salt _ _ => False
  end.

Definition is_result_read (e : event) : bool :=
  match e with
  | Load Result _ => true
  | _ => false
  end.

(** The position and byte of a write to the result buffer. *)
Definition stored (e : event) : option (Z * byte) :=
  match e with
  | Store Result i b => Some (i, b)
  | _ => None
  end.

Definition is_heap_call (e : event) : bool :=
  match e with
  | Malloc _ | Free => true
  | _ => false
  end.

(** ** Package initialisation

    The initialisation functions call into Tcl and test what it answers.
    Tcl is not part of this code: a [host] gives the answers, and the calls
    made are recorded in order. *)

Inductive api_call : Type :=
| InitStubs (version : string) (exact : Z)
| CreateNamespace (name : string)
| CreateObjCommand (name : string) (proc : Z -> list Tcl_Obj -> M code)
| PkgProvide (name version : string).

Record host : Type := mkHost {
  stubs_found : string -> Z -> bool;          (* Tcl_InitStubs(...) != NULL *)
  namespace_created : string -> bool;         (* Tcl_CreateNamespace(...) != NULL *)
  package_provided : string -> string -> code (* what Tcl_PkgProvide returns *)
}.

Definition Setup (A : Type) : Type :=
  host -> list api_call -> A * list api_call.

#[global] Instance Setup_ret : MRet Setup := fun A a _ calls => (a, calls).

#[global] Instance Setup_bind : MBind Setup := fun A B k m h calls =>
  let '(a, calls') := m h calls in k a h calls'.

Definition Tcl_InitStubs (version : string) (exact : Z) : Setup bool :=
  fun h calls => (stubs_found h version exact, calls ++ [InitStubs version exact]).

Definition Tcl_CreateNamespace (name : string) : Setup bool :=
  fun h calls => (namespace_created h name, calls ++ [CreateNamespace name]).

Definition Tcl_CreateObjCommand (name : string)
  (proc : Z -> list Tcl_Obj -> M code) : Setup unit :=
  fun h calls => (tt, calls ++ [CreateObjCommand name proc]).

Definition Tcl_PkgProvide (name version : string) : Setup code :=
  fun h calls => (package_provided h name version, calls ++ [PkgProvide name version]).

Definition is_TCL_OK (c : code) : bool :=
  match c with
  | TCL_OK => true
  | TCL_ERROR => false
  end.

(** generic/performance.c.  [PACKAGE_NAME] and [PACKAGE_VERSION] come from
    config.h, which the build generates; they are parameters here. *)
Module Generic.

Definition NS_PREFIX (PACKAGE_NAME : string) : string :=
  (PACKAGE_NAME ++ "::")%string.

Definition Performance_Init (PACKAGE_NAME PACKAGE_VERSION : string) : Setup code :=
  stubs ← Tcl_InitStubs "8.6-" 0 ;
  if negb stubs then mret TCL_ERROR
  else
    ns ← Tcl_CreateNamespace (NS_PREFIX PACKAGE_NAME) ;
    if negb ns then mret TCL_ERROR
    else
      Tcl_CreateObjCommand (NS_PREFIX PACKAGE_NAME ++ "xor")%string Tcl_xor_cmd ;;
      rc ← Tcl_PkgProvide PACKAGE_NAME PACKAGE_VERSION ;
      if negb (is_TCL_OK rc) then mret TCL_ERROR
      else mret TCL_OK.

Definition performance_Init (PACKAGE_NAME PACKAGE_VERSION : string) : Setup code :=
  Performance_Init PACKAGE_NAME PACKAGE_VERSION.

End Generic.

(** performance.c, the earlier layout of the package. *)
Module Legacy.

Definition Tclperformance_Init : Setup code :=
  stubs ← Tcl_InitStubs "8.6" 0 ;
  if negb stubs then mret TCL_ERROR
  else
    rc ← Tcl_PkgProvide "tclperformance" "0.1" ;
    if negb (is_TCL_OK rc) then mret TCL_ERROR
    else
      Tcl_CreateObjCommand "xor" Tcl_xor_cmd ;;
      mret TCL_OK.

End Legacy.

(** A host that accepts every call, and one whose package database
    refuses. *)
Definition willing_host : host :=
  mkHost (fun _ _ => true) (fun _ => true) (fun _ _ => TCL_OK).

Definition refusing_host : host :=
  mkHost (fun _ _ => true) (fun _ => true) (fun _ _ => TCL_ERROR).

(** * Proofs *)

(** ** Exclusive or on bytes *)

Lemma lxor_byte_range (a b : Z) :
  0 <= a < 2 ^ 8 -> 0 <= b < 2 ^ 8 -> 0 <= Z.lxor a b < 2 ^ 8.
Proof.
  intros Ha Hb.
  assert (0 <= Z.lxor a b) as Hnn by (apply Z.lxor_nonneg; lia).
  split; [exact Hnn |].
  destruct (Z.eq_dec (Z.lxor a b) 0) as [-> | Hne]; [lia |].
  apply Z.log2_lt_pow2; [lia |].
  pose proof (Z.log2_lxor a b ltac:(lia) ltac:(lia)) as Hl.
  assert (forall z, 0 <= z < 2 ^ 8 -> Z.log2 z < 8) as Hlog.
  { intros z Hz. destruct (Z.eq_dec z 0) as [-> | ?];
      [simpl; lia | apply Z.log2_lt_pow2; lia]. }
  pose proof (Hlog a Ha). pose proof (Hlog b Hb). lia.
Qed.

(** No bit is lost when the [int] result of [^] is stored in an
    [unsigned char]. *)
Lemma unsigned_xor (a b : byte) :
  byte.unsigned (byte.xor a b) = Z.lxor (byte.unsigned a) (byte.unsigned b).
Proof.
  unfold byte.xor. rewrite byte.unsigned_of_Z. unfold byte.wrap.
  apply Z.mod_small.
  apply lxor_byte_range; apply byte.unsigned_range.
Qed.

Lemma xor_comm (a b : byte) : byte.xor a b = byte.xor b a.
Proof. unfold byte.xor. by rewrite Z.lxor_comm. Qed.

Lemma xor_involutive (d k : byte) : byte.xor (byte.xor d k) k = d.
Proof.
  apply byte.unsigned_inj. rewrite !unsigned_xor.
  by rewrite Z.lxor_assoc, Z.lxor_nilpotent, Z.lxor_0_r.
Qed.

(** ** The reference definition *)

Lemma length_transform_reference data key :
  length (transform_reference data key) = length data.
Proof. unfold transform_reference. apply length_imap. Qed.

Lemma lookup_transform_reference data key (i : nat) :
  transform_reference data key !! i
  = (fun d => byte.xor d (key_at key i)) <$> data !! i.
Proof. unfold transform_reference. apply list_lookup_imap. Qed.

Lemma transform_reference_involutive data key :
  transform_reference (transform_reference data key) key = data.
Proof.
  apply list_eq. intros i.
  rewrite !lookup_transform_reference.
  destruct (data !! i) as [d |]; simpl; [| done].
  by rewrite xor_involutive.
Qed.

Lemma key_at_self (a : list byte) (i : nat) (d : byte) :
  a !! i = Some d -> key_at a i = d.
Proof.
  intros Hd. unfold key_at.
  rewrite Nat.mod_small by (by eapply lookup_lt_Some).
  by rewrite Hd.
Qed.

Lemma transform_reference_comm (a b : list byte) :
  length a = length b -> transform_reference a b = transform_reference b a.
Proof.
  intros Hlen. apply list_eq. intros i.
  rewrite !lookup_transform_reference.
  destruct (a !! i) as [x |] eqn:Ha, (b !! i) as [y |] eqn:Hb; simpl.
  - rewrite (key_at_self _ _ _ Ha), (key_at_self _ _ _ Hb). f_equal. apply xor_comm.
  - apply lookup_lt_Some in Ha. apply lookup_ge_None in Hb. lia.
  - apply lookup_lt_Some in Hb. apply lookup_ge_None in Ha. lia.
  - done.
Qed.

Lemma nonempty_length {A} (l : list A) : (1 <= length l)%nat -> l <> [].
Proof. destruct l; simpl; [lia | congruence]. Qed.

Lemma length_nonempty {A} (l : list A) : l <> [] -> length l <> 0%nat.
Proof. destruct l; simpl; congruence. Qed.

(** ** Running the monad *)

Lemma bind_done {A B} (m : M A) (k : A -> M B) (w w' : world) (a : A) :
  m w = Done (a, w') -> (m ≫= k) w = k a w'.
Proof. intros H. unfold mbind, M_bind. by rewrite H. Qed.

Lemma bind_undefined {A B} (m : M A) (k : A -> M B) (w : world) :
  m w = Undefined -> (m ≫= k) w = Undefined.
Proof. intros H. unfold mbind, M_bind. by rewrite H. Qed.

Lemma bind_inv {A B} (m : M A) (k : A -> M B) (w w' : world) (b : B) :
  (m ≫= k) w = Done (b, w') ->
  exists a w1, m w = Done (a, w1) /\ k a w1 = Done (b, w').
Proof.
  unfold mbind, M_bind. destruct (m w) as [[a w1] | |]; [| done | done].
  intros H. by exists a, w1.
Qed.

(** One [bind] of the command, run on the world it is applied to. *)
Ltac bind_step := unfold mbind at 1, M_bind at 1, mret at 1, M_ret at 1.

Lemma log_nil w : log w [] = w.
Proof. destruct w. unfold log. simpl. by rewrite app_nil_r. Qed.

Lemma log_log w evs evs' : log (log w evs) evs' = log w (evs ++ evs').
Proof. unfold log. simpl. by rewrite app_assoc. Qed.

(** ** Memory accesses *)

Lemma in_bounds_true (i : nat) (len : nat) :
  (i < len)%nat -> (0 <=? Z.of_nat i) && (Z.of_nat i <? Z.of_nat len) = true.
Proof.
  intros Hlt. apply andb_true_intro. split; [apply Z.leb_le | apply Z.ltb_lt]; lia.
Qed.

Lemma load_in_bounds (name : buffer) (buf : list byte) (i : nat) (b : byte) w :
  buf !! i = Some b ->
  load name buf (Z.of_nat i) w = Done (b, log w [Load name (Z.of_nat i)]).
Proof.
  intros Hb. unfold load.
  rewrite in_bounds_true by (by eapply lookup_lt_Some).
  by rewrite Nat2Z.id, Hb.
Qed.

Lemma load_out_of_bounds (name : buffer) (buf : list byte) (i : Z) w :
  Z.of_nat (length buf) <= i -> load name buf i w = Undefined.
Proof.
  intros Hge. unfold load.
  replace (i <? Z.of_nat (length buf)) with false by (symmetry; apply Z.ltb_ge; lia).
  by rewrite andb_false_r.
Qed.

Lemma load_done_inv (name : buffer) (buf : list byte) (i : Z) (b : byte) w w' :
  load name buf i w = Done (b, w') -> 0 <= i < Z.of_nat (length buf).
Proof.
  unfold load.
  destruct ((0 <=? i) && (i <? Z.of_nat (length buf))) eqn:Hin; [| done].
  intros _. apply andb_prop in Hin as [H0 H1].
  apply Z.leb_le in H0. apply Z.ltb_lt in H1. lia.
Qed.

Lemma store_in_bounds (name : buffer) (buf : list byte) (i : nat) (b : byte) w :
  (i < length buf)%nat ->
  store name buf (Z.of_nat i) b w
  = Done (<[i := b]> buf, log w [Store name (Z.of_nat i) b]).
Proof.
  intros Hlt. unfold store.
  rewrite in_bounds_true by done.
  by rewrite Nat2Z.id.
Qed.

(** The copy of a whole buffer reads each of its bytes once, from position
    0 upwards, and yields them. *)
Lemma copy_out_run (name : buffer) :
  forall (rest pre : list byte) w,
    copy_out name (pre ++ rest) (Z.of_nat (length pre)) (length rest) w
    = Done (rest,
            log w (map (fun i => Load name (Z.of_nat i))
                     (seq (length pre) (length rest)))).
Proof.
  induction rest as [| b rest IH]; intros pre w.
  - simpl. unfold mret, M_ret. by rewrite log_nil.
  - cbn [copy_out length seq map].
    rewrite (bind_done _ _ _ _ _
               (load_in_bounds name (pre ++ b :: rest) (length pre) b w
                  (list_lookup_middle pre rest b _ eq_refl))).
    specialize (IH (pre ++ [b]) (log w [Load name (Z.of_nat (length pre))])).
    rewrite <- app_assoc, length_app in IH. simpl in IH.
    replace (length pre + 1)%nat with (S (length pre)) in IH by lia.
    replace (Z.of_nat (length pre) + 1) with (Z.of_nat (S (length pre))) by lia.
    rewrite (bind_done _ _ _ _ _ IH).
    unfold mret, M_ret. by rewrite log_log.
Qed.

Lemma Tcl_NewByteArrayObj_run (bytes : list byte) w :
  Tcl_NewByteArrayObj bytes (Z.of_nat (length bytes)) w
  = Done (ByteArrayObj bytes, log w (copy_events (length bytes))).
Proof.
  unfold Tcl_NewByteArrayObj. rewrite Nat2Z.id.
  by rewrite (bind_done _ _ _ _ _ (copy_out_run Result bytes [] w)).
Qed.

(** ** The counters

    Whenever a pass through the body completes, both reads were inside
    their buffers, so the values [ti + 1] and [si + 1] computed by the
    increments are at most the lengths of the text and of the key: no
    increment leaves the range of the counters' type. *)
Lemma xor_body_counters text salt saltLen st st' w w' :
  xor_body text salt saltLen st w = Done (st', w') ->
  0 <= ti st /\ ti st + 1 <= Z.of_nat (length text) /\
  0 <= si st /\ si st + 1 <= Z.of_nat (length salt).
Proof.
  unfold xor_body. intros H.
  apply bind_inv in H as (t & w1 & Ht & H).
  apply bind_inv in H as (s & w2 & Hs & _).
  apply load_done_inv in Ht, Hs. lia.
Qed.

(** The running counter: one more than [n mod K], reset to 0 on reaching
    [K], is [(n + 1) mod K]. *)
Lemma counter_step (n K : nat) :
  K <> 0%nat ->
  (if Z.of_nat (n mod K) + 1 >=? Z.of_nat K then 0 else Z.of_nat (n mod K) + 1)
  = Z.of_nat (S n mod K).
Proof.
  intros HK.
  pose proof (Nat.mod_upper_bound n K HK) as Hlt.
  pose proof (Nat.div_mod_eq n K) as Hn.
  destruct (Z.geb_spec (Z.of_nat (n mod K) + 1) (Z.of_nat K)) as [Hge | Hlt'].
  - assert (S (n mod K) = K) as HS by lia.
    change 0 with (Z.of_nat 0). apply (f_equal Z.of_nat).
    apply (Nat.mod_unique (S n) K (S (n / K)) 0); [lia | nia].
  - replace (Z.of_nat (n mod K) + 1) with (Z.of_nat (S (n mod K))) by lia.
    apply (f_equal Z.of_nat).
    apply (Nat.mod_unique (S n) K (n / K) (S (n mod K))); [lia | nia].
Qed.

(** ** The loop, for a key of at least one byte *)

Lemma xor_from_cons key i d rest :
  xor_from key i (d :: rest) = byte.xor d (key_at key i) :: xor_from key (S i) rest.
Proof.
  unfold xor_from. rewrite imap_cons. rewrite Nat.add_0_r. f_equal.
  apply imap_ext. intros j x _. simpl. f_equal. f_equal. lia.
Qed.

Lemma loop_events_cons key i d rest :
  loop_events key i (d :: rest)
  = [Load Text (Z.of_nat i);
     Load Salt (Z.of_nat (i mod length key));
     Store Result (Z.of_nat i) (byte.xor d (key_at key i))]
    ++ loop_events key (S i) rest.
Proof.
  unfold loop_events. rewrite imap_cons. rewrite Nat.add_0_r. simpl.
  do 3 f_equal. f_equal.
  apply imap_ext. intros j x _. simpl.
  replace (i + S j)%nat with (S (i + j)) by lia. reflexivity.
Qed.

Section KeyCycling.
Variable salt : list byte.
Hypothesis salt_nonempty : salt <> [].

Local Abbreviation saltLen := (Z.of_nat (length salt)).

Lemma key_at_lookup (i : nat) :
  salt !! (i mod length salt)%nat = Some (key_at salt i).
Proof.
  unfold key_at.
  destruct (lookup_lt_is_Some_2 salt (i mod length salt)%nat) as [k Hk].
  - apply Nat.mod_upper_bound. by apply length_nonempty.
  - by rewrite Hk.
Qed.

(** One pass with [ti = n] and [si = n mod K]: the byte written at [n] is
    the text byte XOR the key byte at [n mod K], and [si] becomes
    [(n + 1) mod K]. *)
Lemma xor_body_run (text res : list byte) (n : nat) (d : byte) w :
  text !! n = Some d -> (n < length res)%nat ->
  xor_body text salt saltLen
    (mkLoop (Z.of_nat n) (Z.of_nat (n mod length salt)) res) w
  = Done (mkLoop (Z.of_nat n) (Z.of_nat (S n mod length salt))
            (<[n := byte.xor d (key_at salt n)]> res),
          log w [Load Text (Z.of_nat n);
                 Load Salt (Z.of_nat (n mod length salt));
                 Store Result (Z.of_nat n) (byte.xor d (key_at salt n))]).
Proof.
  intros Hd Hn. unfold xor_body. cbn [ti si result].
  rewrite (bind_done _ _ _ _ _ (load_in_bounds Text text n d w Hd)).
  rewrite (bind_done _ _ _ _ _ (load_in_bounds Salt salt _ _ _ (key_at_lookup n))).
  rewrite (bind_done _ _ _ _ _ (store_in_bounds Result res n _ _ Hn)).
  rewrite counter_step by (by apply length_nonempty).
  unfold mret, M_ret. by rewrite !log_log.
Qed.

(** The invariant of the loop.  With the bytes [pre] of the text behind
    and [rest] ahead, [ti] is [length pre], [si] is [length pre mod K] and
    the first [length pre] bytes of the buffer are final. *)
Lemma xor_loop_run :
  forall (rest pre res : list byte) (fuel : nat) w,
    length res = (length pre + length rest)%nat ->
    (length rest <= fuel)%nat ->
    xor_loop fuel (pre ++ rest) salt
      (Z.of_nat (length pre + length rest)) saltLen
      (mkLoop (Z.of_nat (length pre)) (Z.of_nat (length pre mod length salt)) res) w
    = Done (mkLoop (Z.of_nat (length pre + length rest))
              (Z.of_nat ((length pre + length rest) mod length salt))
              (take (length pre) res ++ xor_from salt (length pre) rest),
            log w (loop_events salt (length pre) rest)).
Proof.
  induction rest as [| d rest IH]; intros pre res fuel w Hres Hfuel.
  - simpl in Hres. rewrite Nat.add_0_r in Hres.
    cbn [length]. rewrite Nat.add_0_r.
    assert (forall st, ti st = Z.of_nat (length pre) ->
              xor_loop fuel (pre ++ []) salt (Z.of_nat (length pre)) saltLen st
              = mret st) as Hexit.
    { intros st Hti. destruct fuel; simpl; by rewrite Hti, Z.ltb_irrefl. }
    rewrite Hexit by done.
    unfold mret, M_ret, loop_events, xor_from. simpl.
    by rewrite log_nil, take_ge, app_nil_r by lia.
  - destruct fuel as [| fuel]; [simpl in Hfuel; lia |].
    simpl in Hres, Hfuel.
    cbn [xor_loop ti].
    replace (Z.of_nat (length pre) <? Z.of_nat (length pre + length (d :: rest)))
      with true by (symmetry; apply Z.ltb_lt; simpl; lia).
    assert (length pre < length res)%nat as Hlt by lia.
    rewrite (bind_done _ _ _ _ _
               (xor_body_run (pre ++ d :: rest) res (length pre) d w
                  (list_lookup_middle pre rest d _ eq_refl) Hlt)).
    cbn [ti si result].
    specialize (IH (pre ++ [d])
                  (<[length pre := byte.xor d (key_at salt (length pre))]> res)
                  fuel
                  (log w [Load Text (Z.of_nat (length pre));
                          Load Salt (Z.of_nat (length pre mod length salt));
                          Store Result (Z.of_nat (length pre))
                            (byte.xor d (key_at salt (length pre)))])).
    rewrite <- app_assoc in IH. simpl in IH.
    rewrite length_app in IH. simpl in IH.
    replace (length pre + 1)%nat with (S (length pre)) in IH by lia.
    replace (S (length pre) + length rest)%nat
      with (length pre + length (d :: rest))%nat in IH by (simpl; lia).
    replace (Z.of_nat (length pre) + 1) with (Z.of_nat (S (length pre))) by lia.
    rewrite IH by (rewrite ?length_insert; simpl; lia).
    rewrite log_log, xor_from_cons, loop_events_cons.
    do 3 f_equal.
    rewrite (take_S_r _ _ (byte.xor d (key_at salt (length pre))))
      by (apply list_lookup_insert_eq; lia).
    rewrite take_insert_ge by lia.
    by rewrite <- app_assoc.
Qed.

(** The whole loop, entered with [ti = 0] and [si = 0]: with fuel for
    one pass per byte it ends, and the buffer holds the reference
    result. *)
Lemma xor_loop_all (data res : list byte) (fuel : nat) w :
  length res = length data ->
  (length data <= fuel)%nat ->
  xor_loop fuel data salt (Z.of_nat (length data)) saltLen (mkLoop 0 0 res) w
  = Done (mkLoop (Z.of_nat (length data))
            (Z.of_nat (length data mod length salt))
            (transform_reference data salt),
          log w (loop_events salt 0 data)).
Proof.
  intros Hres Hfuel.
  pose proof (xor_loop_run data [] res fuel w Hres Hfuel) as H.
  simpl in H. by rewrite Nat.Div0.mod_0_l in H.
Qed.
End KeyCycling.

(** The loop entered with [saltLen = 0] over a memory in which some byte
    [b] lies where the key would start.  The read [salt[0]] gets [b], and
    [si] goes to 1 and back to 0, in every pass: each byte of the text is
    combined with [b]. *)
Lemma xor_loop_stray (b : byte) (more : list byte) :
  forall (rest pre res : list byte) (fuel : nat) w,
    length res = (length pre + length rest)%nat ->
    (length rest <= fuel)%nat ->
    exists w' : world,
      xor_loop fuel (pre ++ rest) (b :: more)
        (Z.of_nat (length pre + length rest)) 0
        (mkLoop (Z.of_nat (length pre)) 0 res) w
      = Done (mkLoop (Z.of_nat (length pre + length rest)) 0
                (take (length pre) res ++ map (fun x => byte.xor x b) rest),
              w').
Proof.
  induction rest as [| d rest IH]; intros pre res fuel w Hres Hfuel.
  - exists w. simpl in Hres. rewrite Nat.add_0_r in Hres.
    cbn [length map]. rewrite Nat.add_0_r, take_ge by lia. rewrite !app_nil_r.
    destruct fuel; simpl; rewrite Z.ltb_irrefl; reflexivity.
  - destruct fuel as [| fuel]; [simpl in Hfuel; lia |].
    simpl in Hres, Hfuel.
    specialize (IH (pre ++ [d]) (<[length pre := byte.xor d b]> res) fuel
                  (log w [Load Text (Z.of_nat (length pre)); Load Salt 0;
                          Store Result (Z.of_nat (length pre)) (byte.xor d b)])).
    destruct IH as [w' IH]; [rewrite length_insert, length_app; simpl; lia | lia |].
    exists w'.
    cbn [xor_loop ti].
    replace (Z.of_nat (length pre) <? Z.of_nat (length pre + length (d :: rest)))
      with true by (symmetry; apply Z.ltb_lt; simpl; lia).
    assert (xor_body (pre ++ d :: rest) (b :: more) 0
              (mkLoop (Z.of_nat (length pre)) 0 res) w
            = Done (mkLoop (Z.of_nat (length pre)) 0
                      (<[length pre := byte.xor d b]> res),
                    log w [Load Text (Z.of_nat (length pre)); Load Salt 0;
                           Store Result (Z.of_nat (length pre)) (byte.xor d b)]))
      as Hbody.
    { unfold xor_body. cbn [ti si result].
      rewrite (bind_done _ _ _ _ _
                 (load_in_bounds Text (pre ++ d :: rest) (length pre) d w
                    (list_lookup_middle pre rest d _ eq_refl))).
      rewrite (bind_done _ _ _ _ _
                 (load_in_bounds Salt (b :: more) 0 b _ eq_refl)).
      rewrite (bind_done _ _ _ _ _
                 (store_in_bounds Result res (length pre) _ _ ltac:(lia))).
      unfold mret, M_ret. by rewrite !log_log. }
    rewrite (bind_done _ _ _ _ _ Hbody). cbn [ti si result].
    rewrite <- app_assoc, length_app in IH. simpl in IH.
    replace (length pre + 1)%nat with (S (length pre)) in IH by lia.
    replace (S (length pre) + length rest)%nat
      with (length pre + length (d :: rest))%nat in IH by (simpl; lia).
    replace (Z.of_nat (length pre) + 1) with (Z.of_nat (S (length pre))) by lia.
    rewrite IH. do 3 f_equal.
    rewrite (take_S_r _ _ (byte.xor d b))
      by (apply list_lookup_insert_eq; lia).
    rewrite take_insert_ge by lia.
    by rewrite <- app_assoc.
Qed.

(** ** The command *)

(** The command called with three words, up to the loop: the result is
    reset, both arguments are fetched and the result buffer is allocated. *)
Lemma Tcl_xor_cmd_args (objv : list Tcl_Obj) (data key : list byte) w :
  objv !! 1%nat = Some data ->
  objv !! 2%nat = Some key ->
  Tcl_xor_cmd 3 objv w
  = (st ← xor_loop (length data) data key
            (Z.of_nat (length data)) (Z.of_nat (length key))
            (mkLoop 0 0 (map (fresh w) (seq 0 (length data)))) ;
     obj ← Tcl_NewByteArrayObj (result st) (Z.of_nat (length data)) ;
     Tcl_SetObjResult obj ;;
     free ;;
     mret TCL_OK)
      (mkWorld (StringResult EmptyString) (fresh w)
         (trace w ++ [Malloc (Z.of_nat (length data))])).
Proof.
  intros H1 H2.
  unfold Tcl_xor_cmd, Tcl_GetByteArrayFromObj. rewrite H1, H2.
  change (negb (3 =? 3)) with false. cbv iota.
  unfold Tcl_ResetResult. do 3 bind_step.
  unfold mbind at 1, M_bind at 1, malloc, log. cbn [fresh interp_result trace].
  by rewrite Nat2Z.id.
Qed.

(** Two arguments, the key of at least one byte. *)
Lemma Tcl_xor_cmd_run (objv : list Tcl_Obj) (data key : list byte) w :
  objv !! 1%nat = Some data ->
  objv !! 2%nat = Some key ->
  key <> [] ->
  Tcl_xor_cmd 3 objv w
  = Done (TCL_OK,
          mkWorld (ByteArrayObj (transform_reference data key)) (fresh w)
            (trace w ++ cmd_events data key)).
Proof.
  intros H1 H2 Hk. rewrite (Tcl_xor_cmd_args objv data key w H1 H2).
  erewrite bind_done;
    [| apply xor_loop_all; [done | by rewrite length_map, length_seq | lia]].
  cbn [result].
  rewrite <- (length_transform_reference data key) at 1.
  rewrite (bind_done _ _ _ _ _ (Tcl_NewByteArrayObj_run _ _)).
  rewrite length_transform_reference.
  unfold mbind, M_bind, Tcl_SetObjResult, free, emit, mret, M_ret,
    log, cmd_events.
  cbn [fresh interp_result trace].
  by rewrite <- !app_assoc.
Qed.

(** Two arguments, the text empty: the loop is not entered. *)
Lemma Tcl_xor_cmd_run_empty (objv : list Tcl_Obj) (key : list byte) w :
  objv !! 1%nat = Some [] ->
  objv !! 2%nat = Some key ->
  Tcl_xor_cmd 3 objv w
  = Done (TCL_OK,
          mkWorld (ByteArrayObj []) (fresh w) (trace w ++ [Malloc 0; Free])).
Proof.
  intros H1 H2. rewrite (Tcl_xor_cmd_args objv [] key w H1 H2).
  change (length []) with 0%nat. change (Z.of_nat 0) with 0.
  unfold Tcl_NewByteArrayObj. change (Z.to_nat 0) with 0%nat.
  unfold mbind, M_bind, mret, M_ret, free, emit, log. cbn.
  by rewrite <- app_assoc.
Qed.

(** Two arguments, the text not empty and the key empty: the first pass of
    the loop reads [salt[0]], outside the key. *)
Lemma Tcl_xor_cmd_run_no_key (objv : list Tcl_Obj) (d : byte) (data : list byte) w :
  objv !! 1%nat = Some (d :: data) ->
  objv !! 2%nat = Some [] ->
  Tcl_xor_cmd 3 objv w = Undefined.
Proof.
  intros H1 H2. rewrite (Tcl_xor_cmd_args objv (d :: data) [] w H1 H2).
  apply bind_undefined.
  cbn [length xor_loop ti].
  replace (0 <? Z.of_nat (S (length data))) with true
    by (symmetry; apply Z.ltb_lt; lia).
  apply bind_undefined.
  unfold xor_body. cbn [ti si].
  rewrite (bind_done _ _ _ _ _ (load_in_bounds Text (d :: data) 0 d _ eq_refl)).
  apply bind_undefined. apply load_out_of_bounds. simpl. lia.
Qed.

(** Three words announced while [objv] holds fewer: the fetch of an
    argument reads past the array. *)
Lemma Tcl_xor_cmd_run_short (objv : list Tcl_Obj) w :
  objv !! 1%nat = None \/ objv !! 2%nat = None ->
  Tcl_xor_cmd 3 objv w = Undefined.
Proof.
  intros H. unfold Tcl_xor_cmd, Tcl_GetByteArrayFromObj.
  change (negb (3 =? 3)) with false. cbv iota.
  unfold Tcl_ResetResult. bind_step.
  destruct (objv !! 1%nat) as [data |] eqn:H1.
  - destruct H as [H | H]; [discriminate |].
    bind_step. by rewrite H.
  - reflexivity.
Qed.

(** A number of words other than three. *)
Lemma Tcl_xor_cmd_run_usage (objc : Z) (objv : list Tcl_Obj) w :
  objc <> 3 ->
  Tcl_xor_cmd objc objv w
  = Done (TCL_ERROR, mkWorld (StringResult usage) (fresh w) (trace w)).
Proof.
  intros Hc. unfold Tcl_xor_cmd.
  replace (objc =? 3) with false by (symmetry; by apply Z.eqb_neq).
  reflexivity.
Qed.

(** The model's budget for the loop is enough: no run of the command ends
    for want of fuel. *)
Lemma Tcl_xor_cmd_fuel (objc : Z) (objv : list Tcl_Obj) w :
  Tcl_xor_cmd objc objv w <> OutOfFuel.
Proof.
  destruct (Z.eq_dec objc 3) as [-> | Hc];
    [| by rewrite Tcl_xor_cmd_run_usage by done].
  destruct (objv !! 1%nat) as [data |] eqn:H1;
    [| by rewrite Tcl_xor_cmd_run_short by auto].
  destruct (objv !! 2%nat) as [key |] eqn:H2;
    [| by rewrite Tcl_xor_cmd_run_short by auto].
  destruct key as [| k key].
  - destruct data as [| d data].
    + by rewrite (Tcl_xor_cmd_run_empty objv [] _ H1 H2).
    + by rewrite (Tcl_xor_cmd_run_no_key objv d data _ H1 H2).
  - by rewrite (Tcl_xor_cmd_run objv data (k :: key) _ H1 H2).
Qed.

(** The verdict of a run does not depend on the world it starts in. *)
Lemma verdict_world_independent (objc : Z) (objv : list Tcl_Obj) (w1 w2 : world) :
  verdict (Tcl_xor_cmd objc objv w1) = verdict (Tcl_xor_cmd objc objv w2).
Proof.
  destruct (Z.eq_dec objc 3) as [-> | Hc];
    [| by rewrite !Tcl_xor_cmd_run_usage by done].
  destruct (objv !! 1%nat) as [data |] eqn:H1;
    [| by rewrite !Tcl_xor_cmd_run_short by auto].
  destruct (objv !! 2%nat) as [key |] eqn:H2;
    [| by rewrite !Tcl_xor_cmd_run_short by auto].
  destruct key as [| k key].
  - destruct data as [| d data].
    + by rewrite !(Tcl_xor_cmd_run_empty objv [] _ H1 H2).
    + by rewrite !(Tcl_xor_cmd_run_no_key objv d data _ H1 H2).
  - by rewrite !(Tcl_xor_cmd_run objv data (k :: key) _ H1 H2).
Qed.

(** ** From the command to [transform] *)

Lemma transform_run w data key :
  key <> [] -> transform w data key = Some (transform_reference data key).
Proof.
  intros Hk. unfold transform, invoke.
  change (Z.of_nat (length [xor_name; data; key])) with 3.
  by rewrite (Tcl_xor_cmd_run [xor_name; data; key] data key w eq_refl eq_refl Hk).
Qed.

Lemma transform_run_empty w key : transform w [] key = Some [].
Proof.
  unfold transform, invoke.
  change (Z.of_nat (length [xor_name; []; key])) with 3.
  by rewrite (Tcl_xor_cmd_run_empty [xor_name; []; key] key w eq_refl eq_refl).
Qed.

(** * The claims *)

(** C1: for data of N >= 1 bytes and a key of K >= 1 bytes, [transform]
    returns exactly N bytes, and the byte at every position i < N is
    data[i] XOR key[i mod K]. *)
Theorem transform_bytewise (w : world) (data key : list byte) :
  (1 <= length data)%nat ->
  (1 <= length key)%nat ->
  exists out : list byte,
    transform w data key = Some out /\
    length out = length data /\
    forall i : nat, (i < length data)%nat ->
      exists d k : byte,
        data !! i = Some d /\
        key !! (i mod length key)%nat = Some k /\
        out !! i = Some (byte.xor d k).
Proof.
  intros _ HK. apply nonempty_length in HK.
  exists (transform_reference data key).
  split; [by apply transform_run |].
  split; [apply length_transform_reference |].
  intros i Hi.
  destruct (lookup_lt_is_Some_2 data i Hi) as [d Hd].
  exists d, (key_at key i).
  split; [exact Hd |].
  split; [by apply key_at_lookup |].
  by rewrite lookup_transform_reference, Hd.
Qed.

Lemma transform_bytewise_witness :
  exists out : list byte,
    transform sample_world [Byte.x48; Byte.x00; Byte.xff] [Byte.x73; Byte.x65]
    = Some out /\
    length out = 3%nat /\
    forall i : nat, (i < 3)%nat ->
      exists d k : byte,
        [Byte.x48; Byte.x00; Byte.xff] !! i = Some d /\
        [Byte.x73; Byte.x65] !! (i mod 2)%nat = Some k /\
        out !! i = Some (byte.xor d k).
Proof.
  apply (transform_bytewise sample_world
           [Byte.x48; Byte.x00; Byte.xff] [Byte.x73; Byte.x65]); simpl; lia.
Defined.

(** C2: for every data and every key of at least one byte, applying
    [transform] twice with the same key gives back the data, byte for byte
    and in full length; data ranges over all lists of bytes, so over every
    value 0x00-0xFF at every position, null bytes included. *)
Theorem transform_involution (w w' : world) (data key : list byte) :
  (1 <= length key)%nat ->
  exists mid : list byte,
    transform w data key = Some mid /\
    length mid = length data /\
    transform w' mid key = Some data.
Proof.
  intros HK. apply nonempty_length in HK.
  exists (transform_reference data key).
  split; [by apply transform_run |].
  split; [apply length_transform_reference |].
  rewrite transform_run by done.
  by rewrite transform_reference_involutive.
Qed.

Lemma transform_involution_witness :
  exists mid : list byte,
    transform sample_world all_bytes [Byte.x00; Byte.x5a; Byte.xff] = Some mid /\
    length mid = length all_bytes /\
    transform sample_world mid [Byte.x00; Byte.x5a; Byte.xff] = Some all_bytes.
Proof.
  apply (transform_involution sample_world sample_world all_bytes
           [Byte.x00; Byte.x5a; Byte.xff]); simpl; lia.
Defined.

(** C3: the specification asks that a key of no bytes with non-empty data
    be rejected with an InvalidKey failure.  The command has no such check:
    on such input the first pass of its loop reads [salt[0]], outside the
    key, so the run is [Undefined]; it is not a [TCL_ERROR] return, and no
    result is produced. *)
Theorem empty_key_is_not_rejected (w : world) (d : byte) (data : list byte) :
  invoke [xor_name; d :: data; []] w = Undefined /\
  (forall w' : world, invoke [xor_name; d :: data; []] w <> Done (TCL_ERROR, w')) /\
  transform w (d :: data) [] = None.
Proof.
  assert (invoke [xor_name; d :: data; []] w = Undefined) as H.
  { unfold invoke.
    change (Z.of_nat (length [xor_name; d :: data; []])) with 3.
    by apply (Tcl_xor_cmd_run_no_key _ d data). }
  split; [exact H |]. split.
  - intros w'. by rewrite H.
  - unfold transform. by rewrite H.
Qed.

(** C4: for every data, the empty one included, and every key of at least
    one byte, the result of [transform] has exactly the length of the data,
    whatever the length of the key. *)
Theorem transform_length (w : world) (data key : list byte) :
  (1 <= length key)%nat ->
  exists out : list byte,
    transform w data key = Some out /\ length out = length data.
Proof.
  intros HK. apply nonempty_length in HK.
  exists (transform_reference data key).
  split; [by apply transform_run | apply length_transform_reference].
Qed.

Lemma transform_length_witness :
  exists out : list byte,
    transform sample_world [] [Byte.x6b; Byte.x65; Byte.x79] = Some out /\
    length out = 0%nat.
Proof.
  apply (transform_length sample_world [] [Byte.x6b; Byte.x65; Byte.x79]);
    simpl; lia.
Defined.

(** C5: on empty data the command succeeds and returns the empty byte
    array, for every key, the empty one included; its memory operations are
    one allocation of 0 bytes and its release, so no byte of the key is
    read.  In particular [transform [] []] is [[]]. *)
Theorem transform_empty_data (w : world) (key : list byte) :
  invoke [xor_name; []; key] w
  = Done (TCL_OK, log (mkWorld (ByteArrayObj []) (fresh w) (trace w)) [Malloc 0; Free]) /\
  transform w [] key = Some [] /\
  transform w [] [] = Some [].
Proof.
  split; [| split; apply transform_run_empty].
  unfold invoke.
  change (Z.of_nat (length [xor_name; []; key])) with 3.
  by rewrite (Tcl_xor_cmd_run_empty [xor_name; []; key] key w eq_refl eq_refl).
Qed.

(** C6: called with a number of words other than three, that is with a
    number of data/key arguments other than two, the command returns
    [TCL_ERROR] with the interpreter's result set to the fixed usage message,
    whatever the interpreter held before; the trace of memory operations is
    unchanged: nothing is allocated, read or written. *)
Theorem wrong_arity_usage_error (objc : Z) (objv : list Tcl_Obj) (w : world) :
  objc <> 3 ->
  Tcl_xor_cmd objc objv w
  = Done (TCL_ERROR,
          mkWorld (StringResult "Invalid command count, use: xor <string> <salt>")
            (fresh w) (trace w)).
Proof. apply Tcl_xor_cmd_run_usage. Qed.

Lemma wrong_arity_usage_error_witness :
  Tcl_xor_cmd 2 [xor_name; [Byte.x41]] sample_world
  = Done (TCL_ERROR,
          mkWorld (StringResult "Invalid command count, use: xor <string> <salt>")
            (fresh sample_world) (trace sample_world)).
Proof.
  apply (wrong_arity_usage_error 2 [xor_name; [Byte.x41]] sample_world). lia.
Defined.

(** C7: for data of 10 bytes 0x41 and the key 0x58 0x59, [transform]
    returns 0x19 0x18 repeated five times. *)
Theorem transform_key_cycling_example (w : world) :
  transform w (repeat Byte.x41 10) [Byte.x58; Byte.x59]
  = Some [Byte.x19; Byte.x18; Byte.x19; Byte.x18; Byte.x19;
          Byte.x18; Byte.x19; Byte.x18; Byte.x19; Byte.x18].
Proof. vm_compute. reflexivity. Qed.

(** When the run stays inside its buffers, that is with empty data or a
    key of at least one byte, its return code and the interpreter's result
    are the same from any two worlds: they do not depend on what the
    interpreter held before, on the content of fresh memory or on earlier
    memory operations.  On non-empty data with an empty key both runs are
    [Undefined], which says nothing of the bytes a machine hands back
    there. *)
Lemma transform_deterministic (w1 w2 : world) :
  (forall (objc : Z) (objv : list Tcl_Obj),
     verdict (Tcl_xor_cmd objc objv w1) = verdict (Tcl_xor_cmd objc objv w2)) /\
  (forall data key : list byte, transform w1 data key = transform w2 data key).
Proof.
  split.
  - intros objc objv. apply verdict_world_independent.
  - intros data key. unfold transform.
    pose proof (verdict_world_independent
                  (Z.of_nat (length [xor_name; data; key]))
                  [xor_name; data; key] w1 w2) as H.
    unfold invoke.
    destruct (Tcl_xor_cmd _ _ w1) as [[c1 v1] | |],
             (Tcl_xor_cmd _ _ w2) as [[c2 v2] | |];
      simpl in H; try discriminate; try reflexivity.
    by injection H as -> ->.
Qed.

(** C8: the specification asks that identical data and key always give
    identical output.  On non-empty data with a key of no bytes the command
    does not: it tests [saltLen] nowhere, and each pass of its loop reads
    [salt[0]], which is outside the key.  In the embedding the run is
    [Undefined].  On a machine the read gets whatever byte [b] lies at that
    address, and the loop, entered as the command enters it, ends with the
    data combined with [b] in the result buffer; so two runs on the same
    data and key with the bytes 0x00 and 0xFF at that address return
    different bytes. *)
Theorem empty_key_output_depends_on_stray_byte (w : world) (d : byte)
  (data : list byte) :
  invoke [xor_name; d :: data; []] w = Undefined /\
  (forall (b : byte) (more : list byte),
     exists w' : world,
       xor_loop (S (length data)) (d :: data) (b :: more)
         (Z.of_nat (S (length data))) 0
         (mkLoop 0 0 (map (fresh w) (seq 0 (S (length data))))) w
       = Done (mkLoop (Z.of_nat (S (length data))) 0
                 (map (fun x => byte.xor x b) (d :: data)),
               w')) /\
  map (fun x => byte.xor x Byte.x00) (d :: data)
  <> map (fun x => byte.xor x Byte.xff) (d :: data).
Proof.
  split; [| split].
  - unfold invoke.
    change (Z.of_nat (length [xor_name; d :: data; []])) with 3.
    by apply (Tcl_xor_cmd_run_no_key _ d data).
  - intros b more.
    destruct (xor_loop_stray b more (d :: data) []
                (map (fresh w) (seq 0 (S (length data))))
                (S (length data)) w) as [w' H].
    + by rewrite length_map, length_seq.
    + simpl. lia.
    + exists w'. exact H.
  - intros [= H _].
    rewrite (xor_comm d Byte.x00), (xor_comm d Byte.xff) in H.
    apply (f_equal (fun y => byte.xor y d)) in H.
    rewrite !xor_involutive in H. discriminate.
Qed.

(** C9: the loop with its running counter ([si] from 0, one up per byte,
    back to 0 on reaching the key length) ends, given fuel for one pass per
    byte, with the result buffer holding the bytes of the reference
    definition, which takes the key byte at [i mod len(key)] for each
    position i; the command returns these bytes. *)
Theorem running_counter_refines_reference (w : world) (data key : list byte) :
  (1 <= length key)%nat ->
  (forall (fuel : nat) (result0 : list byte),
     (length data <= fuel)%nat ->
     length result0 = length data ->
     xor_loop fuel data key
       (Z.of_nat (length data)) (Z.of_nat (length key)) (mkLoop 0 0 result0) w
     = Done (mkLoop (Z.of_nat (length data))
               (Z.of_nat (length data mod length key))
               (transform_reference data key),
             log w (loop_events key 0 data))) /\
  transform w data key = Some (transform_reference data key).
Proof.
  intros HK. apply nonempty_length in HK. split.
  - intros fuel result0 Hfuel Hlen. by apply xor_loop_all.
  - by apply transform_run.
Qed.

Lemma running_counter_refines_reference_witness :
  (forall (fuel : nat) (result0 : list byte),
     (5 <= fuel)%nat ->
     length result0 = 5%nat ->
     xor_loop fuel (repeat Byte.x41 5) [Byte.x58; Byte.x59; Byte.x5a] 5 3
       (mkLoop 0 0 result0) sample_world
     = Done (mkLoop 5 2
               (transform_reference (repeat Byte.x41 5)
                  [Byte.x58; Byte.x59; Byte.x5a]),
             log sample_world
               (loop_events [Byte.x58; Byte.x59; Byte.x5a] 0 (repeat Byte.x41 5)))) /\
  transform sample_world (repeat Byte.x41 5) [Byte.x58; Byte.x59; Byte.x5a]
  = Some (transform_reference (repeat Byte.x41 5) [Byte.x58; Byte.x59; Byte.x5a]).
Proof.
  apply (running_counter_refines_reference sample_world
           (repeat Byte.x41 5) [Byte.x58; Byte.x59; Byte.x5a]).
  simpl. lia.
Defined.

(** C10: for non-empty [a] and [b] of equal length, [transform a b] and
    [transform b a] are equal; when the lengths differ they are not, the
    result having the length of the first argument. *)
Theorem transform_symmetric_on_equal_length (w : world) (a b : list byte) :
  (1 <= length a)%nat ->
  (1 <= length b)%nat ->
  (length a = length b -> transform w a b = transform w b a) /\
  (length a <> length b -> transform w a b <> transform w b a).
Proof.
  intros Ha Hb. apply nonempty_length in Ha, Hb.
  rewrite !transform_run by done. split.
  - intros Hlen. f_equal. by apply transform_reference_comm.
  - intros Hlen [= Heq]. apply Hlen.
    apply (f_equal length) in Heq.
    by rewrite !length_transform_reference in Heq.
Qed.

Lemma transform_symmetric_on_equal_length_witness :
  transform sample_world [Byte.x41; Byte.x00] [Byte.x58; Byte.xff]
  = transform sample_world [Byte.x58; Byte.xff] [Byte.x41; Byte.x00] /\
  transform sample_world [Byte.x41; Byte.x00] [Byte.x58]
  <> transform sample_world [Byte.x58] [Byte.x41; Byte.x00].
Proof.
  split.
  - apply (transform_symmetric_on_equal_length sample_world
             [Byte.x41; Byte.x00] [Byte.x58; Byte.xff]); simpl; lia.
  - apply (transform_symmetric_on_equal_length sample_world
             [Byte.x41; Byte.x00] [Byte.x58]); simpl; lia.
Defined.

(** * Further properties of the command *)

(** ** More on exclusive or *)

Lemma xor_zero_r (d : byte) : byte.xor d Byte.x00 = d.
Proof.
  apply byte.unsigned_inj. rewrite unsigned_xor.
  change (byte.unsigned Byte.x00) with 0. apply Z.lxor_0_r.
Qed.

Lemma xor_self (d : byte) : byte.xor d d = Byte.x00.
Proof.
  apply byte.unsigned_inj. rewrite unsigned_xor.
  change (byte.unsigned Byte.x00) with 0. apply Z.lxor_nilpotent.
Qed.

Lemma xor_swap (d k1 k2 : byte) :
  byte.xor (byte.xor d k1) k2 = byte.xor (byte.xor d k2) k1.
Proof.
  apply byte.unsigned_inj. rewrite !unsigned_xor.
  rewrite !Z.lxor_assoc. f_equal. apply Z.lxor_comm.
Qed.

Lemma xor_cancel_l (d k : byte) : byte.xor (byte.xor d k) d = k.
Proof. by rewrite xor_swap, xor_self, xor_comm, xor_zero_r. Qed.

Lemma xor_fixed_iff (d k : byte) : byte.xor d k = d <-> k = Byte.x00.
Proof.
  split.
  - intros H. rewrite <- (xor_cancel_l d k). by rewrite H, xor_self.
  - intros ->. apply xor_zero_r.
Qed.

(** ** The key position under changes of the key *)

Lemma key_at_periodic (key : list byte) (n i : nat) :
  (n mod length key = 0)%nat -> key_at key (n + i) = key_at key i.
Proof.
  intros Hn. unfold key_at.
  by rewrite Nat.Div0.add_mod, Hn, Nat.add_0_l, Nat.Div0.mod_mod.
Qed.

Lemma key_at_rotate (key : list byte) (n i : nat) :
  key_at (rotate n key) i = key_at key (n + i).
Proof.
  unfold key_at. rewrite length_rotate.
  destruct key as [| k key]; [by destruct n |].
  set (K := length (k :: key)).
  assert (K <> 0%nat) as HK by done.
  rewrite lookup_rotate_r by (by apply Nat.mod_upper_bound).
  unfold rotate_nat_add. fold K. do 2 f_equal.
  rewrite <- Nat2Z.inj_add, <- Nat2Z.inj_mod, Nat2Z.id.
  by rewrite Nat.Div0.add_mod_idemp_r.
Qed.

Lemma lookup_tiled (key : list byte) (n i : nat) :
  (i < n * length key)%nat -> tiled n key !! i = key !! (i mod length key)%nat.
Proof.
  revert i. induction n as [| n IH]; intros i Hi; [simpl in Hi; lia |].
  unfold tiled in *. simpl.
  destruct (decide (i < length key)%nat) as [Hlt | Hge].
  - by rewrite lookup_app_l, Nat.mod_small.
  - rewrite lookup_app_r by lia.
    rewrite IH by (simpl in Hi; lia).
    f_equal.
    replace i with ((i - length key) + 1 * length key)%nat at 2 by lia.
    by rewrite Nat.Div0.mod_add.
Qed.

Lemma length_tiled (key : list byte) (n : nat) :
  length (tiled n key) = (n * length key)%nat.
Proof.
  unfold tiled. induction n as [| n IH]; [done |].
  simpl. by rewrite length_app, IH.
Qed.

Lemma key_at_tiled (key : list byte) (n i : nat) :
  key <> [] -> key_at (tiled (S n) key) i = key_at key i.
Proof.
  intros Hk. apply length_nonempty in Hk.
  unfold key_at. rewrite length_tiled.
  rewrite lookup_tiled by (apply Nat.mod_upper_bound; simpl; lia).
  do 2 f_equal.
  rewrite Nat.mul_comm. rewrite Nat.Div0.mod_mul_r.
  rewrite Nat.mul_comm, Nat.Div0.mod_add. apply Nat.Div0.mod_mod.
Qed.

Lemma key_at_take (key : list byte) (n i : nat) :
  (i < n <= length key)%nat -> key_at (take n key) i = key_at key i.
Proof.
  intros Hi. unfold key_at.
  rewrite length_take, Nat.min_l by lia.
  rewrite !Nat.mod_small by lia.
  by rewrite lookup_take_lt by lia.
Qed.

Lemma key_at_zero (n i : nat) : key_at (replicate (S n) Byte.x00) i = Byte.x00.
Proof.
  unfold key_at. rewrite length_replicate.
  by rewrite lookup_replicate_2 by (by apply Nat.mod_upper_bound).
Qed.

(** ** The reference result under changes of the data and of the key *)

Lemma transform_reference_ext (data key key' : list byte) :
  (forall i : nat, (i < length data)%nat -> key_at key i = key_at key' i) ->
  transform_reference data key = transform_reference data key'.
Proof.
  intros H. apply list_eq. intros i.
  rewrite !lookup_transform_reference.
  destruct (data !! i) as [d |] eqn:Hd; simpl; [| done].
  by rewrite H by (by eapply lookup_lt_Some).
Qed.

Lemma transform_reference_app (a b key : list byte) :
  transform_reference (a ++ b) key
  = transform_reference a key ++ transform_reference b (rotate (length a) key).
Proof.
  unfold transform_reference. rewrite imap_app. f_equal.
  apply imap_ext. intros j d _. simpl. by rewrite key_at_rotate.
Qed.

Lemma transform_reference_swap (data k1 k2 : list byte) :
  transform_reference (transform_reference data k1) k2
  = transform_reference (transform_reference data k2) k1.
Proof.
  apply list_eq. intros i.
  rewrite !lookup_transform_reference.
  destruct (data !! i) as [d |]; simpl; [| done].
  by rewrite xor_swap.
Qed.

(** ** The memory operations of a run *)

Lemma loop_events_access_ok (key : list byte) (N : nat) :
  key <> [] ->
  forall (rest : list byte) (i : nat),
    (i + length rest <= N)%nat ->
    Forall (access_ok (Z.of_nat N) (Z.of_nat (length key))) (loop_events key i rest).
Proof.
  intros Hk. apply length_nonempty in Hk.
  induction rest as [| d rest IH]; intros i Hi.
  - unfold loop_events. simpl. constructor.
  - rewrite loop_events_cons. simpl in Hi.
    pose proof (Nat.mod_upper_bound i (length key) Hk).
    apply Forall_app. split.
    + repeat constructor; simpl; lia.
    + apply IH. lia.
Qed.

Lemma loop_events_no_heap_call (key : list byte) :
  forall (rest : list byte) (i : nat),
    Forall (fun e => is_heap_call e = false) (loop_events key i rest).
Proof.
  induction rest as [| d rest IH]; intros i.
  - unfold loop_events. simpl. constructor.
  - rewrite loop_events_cons. apply Forall_app. split; [| apply IH].
    by repeat constructor.
Qed.

Lemma length_loop_events (key : list byte) :
  forall (rest : list byte) (i : nat),
    length (loop_events key i rest) = (3 * length rest)%nat.
Proof.
  induction rest as [| d rest IH]; intros i; [done |].
  rewrite loop_events_cons, length_app, IH. simpl. lia.
Qed.

Lemma loop_events_no_result_read (key : list byte) :
  forall (rest : list byte) (i : nat),
    Forall (fun e => is_result_read e = false) (loop_events key i rest).
Proof.
  induction rest as [| d rest IH]; intros i.
  - unfold loop_events. simpl. constructor.
  - rewrite loop_events_cons. apply Forall_app. split; [| apply IH].
    by repeat constructor.
Qed.

Lemma copy_events_access_ok (n : nat) (saltLen : Z) :
  Forall (access_ok (Z.of_nat n) saltLen) (copy_events n).
Proof.
  unfold copy_events. apply Forall_map. apply Forall_forall.
  intros i Hi. apply elem_of_seq in Hi. simpl. lia.
Qed.

Lemma copy_events_no_heap_call (n : nat) :
  Forall (fun e => is_heap_call e = false) (copy_events n).
Proof. unfold copy_events. apply Forall_map. by apply Forall_forall. Qed.

Lemma stored_copy_events (n : nat) : omap stored (copy_events n) = [].
Proof.
  unfold copy_events. generalize 0%nat.
  induction n as [| n IH]; intros i; [done | simpl; apply IH].
Qed.

Lemma stored_loop_events (key : list byte) :
  forall (rest : list byte) (i : nat),
    omap stored (loop_events key i rest)
    = imap (fun j b => (Z.of_nat (i + j), b)) (xor_from key i rest).
Proof.
  induction rest as [| d rest IH]; intros i; [done |].
  rewrite loop_events_cons, xor_from_cons, imap_cons.
  rewrite omap_app, IH. simpl. rewrite Nat.add_0_r. f_equal.
  apply imap_ext. intros j b _. simpl. do 2 f_equal. lia.
Qed.

(** The run on two arguments, the key of at least one byte, as [invoke]
    gives it. *)
Lemma invoke_run w data key :
  key <> [] ->
  invoke [xor_name; data; key] w
  = Done (TCL_OK,
          mkWorld (ByteArrayObj (transform_reference data key)) (fresh w)
            (trace w ++ cmd_events data key)).
Proof.
  intros Hk. unfold invoke.
  change (Z.of_nat (length [xor_name; data; key])) with 3.
  by apply Tcl_xor_cmd_run.
Qed.

(** ** Properties of [xor data key] *)

(** X1: the run of [xor data key] makes an access outside a buffer exactly
    when the data is not empty and the key is; in every other case it
    returns a byte array. *)
Theorem run_defined_iff (w : world) (data key : list byte) :
  (invoke [xor_name; data; key] w = Undefined <-> data <> [] /\ key = []) /\
  (is_Some (transform w data key) <-> data = [] \/ key <> []).
Proof.
  destruct key as [| k key].
  - destruct data as [| d data].
    + split.
      * split; [| by intros [? _]].
        unfold invoke. change (Z.of_nat (length [xor_name; []; []])) with 3.
        by rewrite (Tcl_xor_cmd_run_empty [xor_name; []; []] [] w eq_refl eq_refl).
      * rewrite transform_run_empty. split; [by left | by eexists].
    + assert (invoke [xor_name; d :: data; []] w = Undefined) as H.
      { unfold invoke.
        change (Z.of_nat (length [xor_name; d :: data; []])) with 3.
        by apply (Tcl_xor_cmd_run_no_key _ d data). }
      split; [by split |].
      unfold transform. rewrite H. split.
      * intros [? ?]. discriminate.
      * intros [? | ?]; done.
  - split.
    + rewrite invoke_run by done. split; [done | by intros [_ ?]].
    + rewrite transform_run by done. split; [by right | by eexists].
Qed.

(** X2: a text cut in two.  The result for [a ++ b] is the result for [a]
    followed by the result for [b] under the key rotated by the length of
    [a]: the second part goes on in the key where the first part stopped. *)
Theorem transform_app (w : world) (a b key : list byte) :
  (1 <= length key)%nat ->
  exists xa xb : list byte,
    transform w a key = Some xa /\
    transform w b (rotate (length a) key) = Some xb /\
    transform w (a ++ b) key = Some (xa ++ xb).
Proof.
  intros HK.
  assert (rotate (length a) key <> []) as Hr
    by (apply nonempty_length; by rewrite length_rotate).
  apply nonempty_length in HK.
  exists (transform_reference a key),
    (transform_reference b (rotate (length a) key)).
  rewrite !transform_run by done.
  by rewrite transform_reference_app.
Qed.

Lemma transform_app_witness :
  exists xa xb : list byte,
    transform sample_world [Byte.x41; Byte.x42] [Byte.x01; Byte.x02; Byte.x03]
    = Some xa /\
    transform sample_world [Byte.x43; Byte.x44]
      (rotate 2 [Byte.x01; Byte.x02; Byte.x03]) = Some xb /\
    transform sample_world ([Byte.x41; Byte.x42] ++ [Byte.x43; Byte.x44])
      [Byte.x01; Byte.x02; Byte.x03] = Some (xa ++ xb).
Proof.
  apply (transform_app sample_world [Byte.x41; Byte.x42] [Byte.x43; Byte.x44]
           [Byte.x01; Byte.x02; Byte.x03]).
  simpl. lia.
Defined.

(** X3: a text processed in chunks with the same key.  When the length of
    the first chunk is a multiple of the key length, the results of the two
    chunks, one after the other, are the result for the whole text. *)
Theorem transform_chunks (w : world) (a b key : list byte) :
  (1 <= length key)%nat ->
  (length a mod length key = 0)%nat ->
  exists xa xb : list byte,
    transform w a key = Some xa /\
    transform w b key = Some xb /\
    transform w (a ++ b) key = Some (xa ++ xb).
Proof.
  intros HK Hmod. apply nonempty_length in HK.
  exists (transform_reference a key), (transform_reference b key).
  rewrite !transform_run by done.
  rewrite transform_reference_app.
  do 2 split; [done.. |]. do 2 f_equal.
  apply transform_reference_ext. intros i _.
  rewrite key_at_rotate. by apply key_at_periodic.
Qed.

Lemma transform_chunks_witness :
  exists xa xb : list byte,
    transform sample_world [Byte.x41; Byte.x42; Byte.x43; Byte.x44]
      [Byte.x01; Byte.x02] = Some xa /\
    transform sample_world [Byte.x45] [Byte.x01; Byte.x02] = Some xb /\
    transform sample_world
      ([Byte.x41; Byte.x42; Byte.x43; Byte.x44] ++ [Byte.x45])
      [Byte.x01; Byte.x02] = Some (xa ++ xb).
Proof.
  apply (transform_chunks sample_world
           [Byte.x41; Byte.x42; Byte.x43; Byte.x44] [Byte.x45]
           [Byte.x01; Byte.x02]).
  - simpl. lia.
  - reflexivity.
Defined.

(** X4: two keys applied one after the other give the same bytes in either
    order, whatever the lengths of the keys. *)
Theorem transform_keys_commute (w : world) (data k1 k2 : list byte) :
  (1 <= length k1)%nat ->
  (1 <= length k2)%nat ->
  exists m1 m2 out : list byte,
    transform w data k1 = Some m1 /\
    transform w data k2 = Some m2 /\
    transform w m1 k2 = Some out /\
    transform w m2 k1 = Some out.
Proof.
  intros H1 H2. apply nonempty_length in H1, H2.
  exists (transform_reference data k1), (transform_reference data k2),
    (transform_reference (transform_reference data k1) k2).
  rewrite !transform_run by done.
  by rewrite (transform_reference_swap data k2 k1).
Qed.

Lemma transform_keys_commute_witness :
  exists m1 m2 out : list byte,
    transform sample_world [Byte.x41; Byte.x42; Byte.x43] [Byte.x01; Byte.x02]
    = Some m1 /\
    transform sample_world [Byte.x41; Byte.x42; Byte.x43] [Byte.xf0] = Some m2 /\
    transform sample_world m1 [Byte.xf0] = Some out /\
    transform sample_world m2 [Byte.x01; Byte.x02] = Some out.
Proof.
  apply (transform_keys_commute sample_world [Byte.x41; Byte.x42; Byte.x43]
           [Byte.x01; Byte.x02] [Byte.xf0]); simpl; lia.
Defined.

(** X5: a key and the same key written out several times in a row give the
    same result. *)
Theorem transform_key_tiled (w : world) (data key : list byte) (n : nat) :
  (1 <= length key)%nat ->
  transform w data (tiled (S n) key) = transform w data key.
Proof.
  intros HK.
  assert (tiled (S n) key <> []) as Ht
    by (apply nonempty_length; rewrite length_tiled; simpl; lia).
  apply nonempty_length in HK.
  rewrite !transform_run by done. f_equal.
  apply transform_reference_ext. intros i _. by apply key_at_tiled.
Qed.

Lemma transform_key_tiled_witness :
  transform sample_world [Byte.x41; Byte.x42; Byte.x43; Byte.x44; Byte.x45]
    (tiled 3 [Byte.x01; Byte.x02])
  = transform sample_world [Byte.x41; Byte.x42; Byte.x43; Byte.x44; Byte.x45]
      [Byte.x01; Byte.x02].
Proof.
  apply (transform_key_tiled sample_world
           [Byte.x41; Byte.x42; Byte.x43; Byte.x44; Byte.x45]
           [Byte.x01; Byte.x02] 2).
  simpl. lia.
Defined.

(** X6: of a key at least as long as the data, only the first
    [length data] bytes count: the rest of the key is never used. *)
Theorem transform_long_key (w : world) (data key : list byte) :
  (length data <= length key)%nat ->
  transform w data key = transform w data (take (length data) key).
Proof.
  intros Hlen. destruct data as [| d data].
  - by rewrite !transform_run_empty.
  - simpl in Hlen.
    assert (key <> []) as Hk by (apply nonempty_length; lia).
    assert (take (length (d :: data)) key <> []) as Ht
      by (apply nonempty_length; rewrite length_take, Nat.min_l; simpl; lia).
    rewrite !transform_run by done. f_equal.
    apply transform_reference_ext. intros i Hi.
    symmetry. apply key_at_take. simpl in *. lia.
Qed.

Lemma transform_long_key_witness :
  transform sample_world [Byte.x41; Byte.x42]
    [Byte.x01; Byte.x02; Byte.x03; Byte.x04]
  = transform sample_world [Byte.x41; Byte.x42]
      (take 2 [Byte.x01; Byte.x02; Byte.x03; Byte.x04]).
Proof.
  apply (transform_long_key sample_world [Byte.x41; Byte.x42]
           [Byte.x01; Byte.x02; Byte.x03; Byte.x04]).
  simpl. lia.
Defined.

(** X7: a key of zero bytes, of any length from 1 on, leaves the data as it
    is. *)
Theorem transform_zero_key (w : world) (data : list byte) (n : nat) :
  transform w data (replicate (S n) Byte.x00) = Some data.
Proof.
  rewrite transform_run by done. f_equal.
  apply list_eq. intros i. rewrite lookup_transform_reference, key_at_zero.
  destruct (data !! i) as [d |]; simpl; [| done].
  by rewrite xor_zero_r.
Qed.

(** X8: data taken as its own key gives zero bytes, as many as the data
    has. *)
Theorem transform_self (w : world) (a : list byte) :
  transform w a a = Some (replicate (length a) Byte.x00).
Proof.
  destruct a as [| d a]; [apply transform_run_empty |].
  rewrite transform_run by done. f_equal.
  apply list_eq. intros i. rewrite lookup_transform_reference.
  destruct (decide (i < length (d :: a))%nat) as [Hlt | Hge].
  - destruct (lookup_lt_is_Some_2 (d :: a) i Hlt) as [x Hx].
    rewrite Hx, lookup_replicate_2 by done. simpl.
    by rewrite (key_at_self _ _ _ Hx), xor_self.
  - rewrite (proj2 (lookup_ge_None _ _)) by lia.
    symmetry. apply lookup_replicate_None. lia.
Qed.

(** X9: the key can be read back from data and result.  For a key no
    longer than the data, [xor] of the result with the data as key starts
    with the bytes of the key. *)
Theorem transform_recovers_key (w w' : world) (data key : list byte) :
  (1 <= length key)%nat ->
  (length key <= length data)%nat ->
  exists out back : list byte,
    transform w data key = Some out /\
    transform w' out data = Some back /\
    take (length key) back = key.
Proof.
  intros HK HN.
  assert (data <> []) as Hd by (apply nonempty_length; lia).
  apply nonempty_length in HK.
  exists (transform_reference data key),
    (transform_reference (transform_reference data key) data).
  rewrite !transform_run by done. do 2 split; [done.. |].
  apply list_eq. intros i.
  destruct (decide (i < length key)%nat) as [Hlt | Hge].
  - rewrite lookup_take_lt by done.
    rewrite !lookup_transform_reference.
    destruct (lookup_lt_is_Some_2 data i ltac:(lia)) as [d Hdi].
    destruct (lookup_lt_is_Some_2 key i Hlt) as [k Hki].
    rewrite Hdi, Hki. simpl.
    by rewrite (key_at_self _ _ _ Hdi), (key_at_self _ _ _ Hki), xor_cancel_l.
  - rewrite lookup_take_ge by lia.
    symmetry. apply lookup_ge_None. lia.
Qed.

Lemma transform_recovers_key_witness :
  exists out back : list byte,
    transform sample_world [Byte.x41; Byte.x42; Byte.x43] [Byte.x6b; Byte.x65]
    = Some out /\
    transform sample_world out [Byte.x41; Byte.x42; Byte.x43] = Some back /\
    take 2 back = [Byte.x6b; Byte.x65].
Proof.
  apply (transform_recovers_key sample_world sample_world
           [Byte.x41; Byte.x42; Byte.x43] [Byte.x6b; Byte.x65]); simpl; lia.
Defined.

(** X10: under one key of at least one byte, different data give different
    results. *)
Theorem transform_injective (w w' : world) (d1 d2 key : list byte) :
  (1 <= length key)%nat ->
  d1 <> d2 ->
  transform w d1 key <> transform w' d2 key.
Proof.
  intros HK Hne. apply nonempty_length in HK.
  rewrite !transform_run by done. intros [= H]. apply Hne.
  rewrite <- (transform_reference_involutive d1 key).
  rewrite <- (transform_reference_involutive d2 key).
  by rewrite H.
Qed.

Lemma transform_injective_witness :
  transform sample_world [Byte.x41; Byte.x42] [Byte.x6b]
  <> transform sample_world [Byte.x41; Byte.x43] [Byte.x6b].
Proof.
  apply (transform_injective sample_world sample_world
           [Byte.x41; Byte.x42] [Byte.x41; Byte.x43] [Byte.x6b]).
  - simpl. lia.
  - discriminate.
Defined.

(** X11: a byte of the result equals the byte of the data at the same
    position exactly when the key byte used there is 0x00. *)
Theorem transform_byte_unchanged_iff (w : world) (data key : list byte) :
  (1 <= length key)%nat ->
  exists out : list byte,
    transform w data key = Some out /\
    forall (i : nat) (d : byte),
      data !! i = Some d ->
      (out !! i = Some d <-> key !! (i mod length key)%nat = Some Byte.x00).
Proof.
  intros HK. apply nonempty_length in HK.
  exists (transform_reference data key).
  split; [by apply transform_run |].
  intros i d Hd.
  rewrite lookup_transform_reference, Hd, (key_at_lookup key HK i). simpl.
  split; intros [= H]; f_equal.
  - by apply xor_fixed_iff in H.
  - rewrite H. apply xor_zero_r.
Qed.

Lemma transform_byte_unchanged_iff_witness :
  exists out : list byte,
    transform sample_world [Byte.x41; Byte.x42] [Byte.x00; Byte.x01] = Some out /\
    forall (i : nat) (d : byte),
      [Byte.x41; Byte.x42] !! i = Some d ->
      (out !! i = Some d
       <-> [Byte.x00; Byte.x01] !! (i mod 2)%nat = Some Byte.x00).
Proof.
  apply (transform_byte_unchanged_iff sample_world [Byte.x41; Byte.x42]
           [Byte.x00; Byte.x01]).
  simpl. lia.
Defined.

(** X12: memory safety of a run with a key of at least one byte, the
    allocation taken to succeed.  Every memory operation of the run,
    including the reads by which Tcl_NewByteArrayObj copies the result, is
    a read of the text or of the key inside its bounds, a write to or a
    read of the result buffer inside its bounds, the allocation of
    [length data] bytes or its release: nothing is accessed outside a
    buffer, and the arguments are never written. *)
Theorem run_accesses_in_bounds (w : world) (data key : list byte) :
  (1 <= length key)%nat ->
  exists (w' : world) (evs : list event),
    invoke [xor_name; data; key] w = Done (TCL_OK, w') /\
    trace w' = trace w ++ evs /\
    Forall (access_ok (Z.of_nat (length data)) (Z.of_nat (length key))) evs.
Proof.
  intros HK. apply nonempty_length in HK.
  eexists _, (cmd_events data key).
  split; [by apply invoke_run |]. split; [done |].
  unfold cmd_events. constructor; [done |].
  apply Forall_app. split; [apply loop_events_access_ok; [done | simpl; lia] |].
  apply Forall_app. split; [apply copy_events_access_ok | by repeat constructor].
Qed.

Lemma run_accesses_in_bounds_witness :
  exists (w' : world) (evs : list event),
    invoke [xor_name; [Byte.x41; Byte.x42; Byte.x43]; [Byte.x6b; Byte.x65]]
      sample_world = Done (TCL_OK, w') /\
    trace w' = trace sample_world ++ evs /\
    Forall (access_ok 3 2) evs.
Proof.
  apply (run_accesses_in_bounds sample_world [Byte.x41; Byte.x42; Byte.x43]
           [Byte.x6b; Byte.x65]).
  simpl. lia.
Defined.

(** X13: the order of the memory operations of a run with a key of at
    least one byte, the allocation taken to succeed.  The run starts with
    its one allocation, of [length data] bytes, and ends with its one
    release.  In between come first the accesses of the loop, three per
    byte of data and none of them a read of the result buffer, and then
    the reads of the copy by Tcl_NewByteArrayObj, one per byte of the
    result buffer from position 0 upwards: the buffer is read only after
    its last byte is written and before it is released. *)
Theorem run_allocates_once (w : world) (data key : list byte) :
  (1 <= length key)%nat ->
  exists (w' : world) (looped copied : list event),
    invoke [xor_name; data; key] w = Done (TCL_OK, w') /\
    trace w'
    = trace w ++ Malloc (Z.of_nat (length data)) :: looped ++ copied ++ [Free] /\
    Forall (fun e => is_heap_call e = false) (looped ++ copied) /\
    length looped = (3 * length data)%nat /\
    Forall (fun e => is_result_read e = false) looped /\
    copied = map (fun i => Load Result (Z.of_nat i)) (seq 0 (length data)).
Proof.
  intros HK. apply nonempty_length in HK.
  eexists _, (loop_events key 0 data), (copy_events (length data)).
  split; [by apply invoke_run |]. split; [done |].
  split; [| split; [apply length_loop_events |
                    split; [apply loop_events_no_result_read | done]]].
  apply Forall_app. split; [apply loop_events_no_heap_call |].
  apply copy_events_no_heap_call.
Qed.

Lemma run_allocates_once_witness :
  exists (w' : world) (looped copied : list event),
    invoke [xor_name; [Byte.x41; Byte.x42; Byte.x43]; [Byte.x6b; Byte.x65]]
      sample_world = Done (TCL_OK, w') /\
    trace w' = trace sample_world ++ Malloc 3 :: looped ++ copied ++ [Free] /\
    Forall (fun e => is_heap_call e = false) (looped ++ copied) /\
    length looped = 9%nat /\
    Forall (fun e => is_result_read e = false) looped /\
    copied = [Load Result 0; Load Result 1; Load Result 2].
Proof.
  apply (run_allocates_once sample_world [Byte.x41; Byte.x42; Byte.x43]
           [Byte.x6b; Byte.x65]).
  simpl. lia.
Defined.

(** X14: the writes of a run with a key of at least one byte.  The result
    buffer is written once at each position, from 0 upwards, and the byte
    written at a position is the byte returned there: no byte of the
    returned array is left as the allocation had it. *)
Theorem run_writes_each_byte_once (w : world) (data key : list byte) :
  (1 <= length key)%nat ->
  exists (w' : world) (evs : list event) (out : list byte),
    invoke [xor_name; data; key] w = Done (TCL_OK, w') /\
    interp_result w' = ByteArrayObj out /\
    trace w' = trace w ++ evs /\
    omap stored evs = imap (fun i b => (Z.of_nat i, b)) out.
Proof.
  intros HK. apply nonempty_length in HK.
  eexists _, (cmd_events data key), (transform_reference data key).
  split; [by apply invoke_run |]. do 2 (split; [done |]).
  unfold cmd_events.
  change (Malloc (Z.of_nat (length data))
          :: loop_events key 0 data ++ copy_events (length data) ++ [Free])
    with ([Malloc (Z.of_nat (length data))]
          ++ loop_events key 0 data ++ copy_events (length data) ++ [Free]).
  rewrite !omap_app, stored_loop_events, stored_copy_events. simpl.
  by rewrite app_nil_r.
Qed.

Lemma run_writes_each_byte_once_witness :
  exists (w' : world) (evs : list event) (out : list byte),
    invoke [xor_name; [Byte.x41; Byte.x42; Byte.x43]; [Byte.x6b; Byte.x65]]
      sample_world = Done (TCL_OK, w') /\
    interp_result w' = ByteArrayObj out /\
    trace w' = trace sample_world ++ evs /\
    omap stored evs = imap (fun i b => (Z.of_nat i, b)) out.
Proof.
  apply (run_writes_each_byte_once sample_world [Byte.x41; Byte.x42; Byte.x43]
           [Byte.x6b; Byte.x65]).
  simpl. lia.
Defined.

(** ** Package initialisation *)

Lemma string_app_assoc (a b c : string) :
  ((a ++ b) ++ c)%string = (a ++ (b ++ c))%string.
Proof. induction a as [| x a IH]; simpl; [done | by rewrite IH]. Qed.

(** The four calls of a complete initialisation, in the order of the
    source. *)
Lemma Performance_Init_run (P V : string) (h : host) (calls : list api_call) :
  Generic.Performance_Init P V h calls
  = if negb (stubs_found h "8.6-" 0) then
      (TCL_ERROR, calls ++ [InitStubs "8.6-" 0])
    else if negb (namespace_created h (P ++ "::")%string) then
      (TCL_ERROR, calls ++ [InitStubs "8.6-" 0; CreateNamespace (P ++ "::")%string])
    else
      (package_provided h P V,
       calls ++ [InitStubs "8.6-" 0;
                 CreateNamespace (P ++ "::")%string;
                 CreateObjCommand (P ++ "::xor")%string Tcl_xor_cmd;
                 PkgProvide P V]).
Proof.
  unfold Generic.Performance_Init, Generic.NS_PREFIX.
  unfold mbind, Setup_bind, mret, Setup_ret,
    Tcl_InitStubs, Tcl_CreateNamespace, Tcl_CreateObjCommand, Tcl_PkgProvide.
  rewrite string_app_assoc. change ("::" ++ "xor")%string with "::xor"%string.
  destruct (stubs_found h "8.6-" 0); simpl; [| done].
  destruct (namespace_created h (P ++ "::")%string); simpl;
    [| by rewrite <- app_assoc].
  destruct (package_provided h P V); simpl; by rewrite <- !app_assoc.
Qed.

Lemma Tclperformance_Init_run (h : host) (calls : list api_call) :
  Legacy.Tclperformance_Init h calls
  = if negb (stubs_found h "8.6" 0) then
      (TCL_ERROR, calls ++ [InitStubs "8.6" 0])
    else if negb (is_TCL_OK (package_provided h "tclperformance" "0.1")) then
      (TCL_ERROR, calls ++ [InitStubs "8.6" 0; PkgProvide "tclperformance" "0.1"])
    else
      (TCL_OK,
       calls ++ [InitStubs "8.6" 0;
                 PkgProvide "tclperformance" "0.1";
                 CreateObjCommand "xor" Tcl_xor_cmd]).
Proof.
  unfold Legacy.Tclperformance_Init.
  unfold mbind, Setup_bind, mret, Setup_ret,
    Tcl_InitStubs, Tcl_CreateObjCommand, Tcl_PkgProvide.
  destruct (stubs_found h "8.6" 0); simpl; [| done].
  destruct (package_provided h "tclperformance" "0.1"); simpl;
    by rewrite <- !app_assoc.
Qed.

(** X15: [Performance_Init] returns [TCL_OK] exactly when Tcl finds the
    stubs for "8.6-", creates the namespace and provides the package; it
    has then made four calls, in this order: the stubs, the namespace
    [PACKAGE_NAME::], the command [PACKAGE_NAME::xor] bound to
    [Tcl_xor_cmd], the package.  [performance_Init] does the same. *)
Theorem Performance_Init_ok_iff (P V : string) (h : host) (calls : list api_call) :
  (fst (Generic.Performance_Init P V h calls) = TCL_OK <->
     stubs_found h "8.6-" 0 = true /\
     namespace_created h (P ++ "::")%string = true /\
     package_provided h P V = TCL_OK) /\
  (fst (Generic.Performance_Init P V h calls) = TCL_OK ->
     snd (Generic.Performance_Init P V h calls)
     = calls ++ [InitStubs "8.6-" 0;
                 CreateNamespace (P ++ "::")%string;
                 CreateObjCommand (P ++ "::xor")%string Tcl_xor_cmd;
                 PkgProvide P V]) /\
  Generic.performance_Init P V h calls = Generic.Performance_Init P V h calls.
Proof.
  split; [| split; [| reflexivity]]; rewrite Performance_Init_run;
    destruct (stubs_found h "8.6-" 0) eqn:Hs,
             (namespace_created h (P ++ "::")%string) eqn:Hn; simpl.
  - split; [by intros -> | by intros (_ & _ & ?)].
  - split; [discriminate | intros (_ & ? & _); discriminate].
  - split; [discriminate | intros (? & _); discriminate].
  - split; [discriminate | intros (? & _); discriminate].
  - done.
  - discriminate.
  - discriminate.
  - discriminate.
Qed.

(** X16: [Performance_Init] stops at the first call that fails: after
    failed stubs it has made that one call, after a failed namespace two,
    and in both cases the command is not created. *)
Theorem Performance_Init_stops_at_failure (P V : string) (h : host)
  (calls : list api_call) :
  (stubs_found h "8.6-" 0 = false ->
   Generic.Performance_Init P V h calls
   = (TCL_ERROR, calls ++ [InitStubs "8.6-" 0])) /\
  (stubs_found h "8.6-" 0 = true ->
   namespace_created h (P ++ "::")%string = false ->
   Generic.Performance_Init P V h calls
   = (TCL_ERROR,
      calls ++ [InitStubs "8.6-" 0; CreateNamespace (P ++ "::")%string])).
Proof.
  rewrite Performance_Init_run. split.
  - by intros ->.
  - by intros -> ->.
Qed.

(** X17: no rollback in [Performance_Init].  When the stubs and the
    namespace succeed and the package is refused, the function returns
    [TCL_ERROR] after the command [PACKAGE_NAME::xor] has been created, and
    makes no call to remove it. *)
Theorem Performance_Init_failed_provide_keeps_command (P V : string) (h : host)
  (calls : list api_call) :
  stubs_found h "8.6-" 0 = true ->
  namespace_created h (P ++ "::")%string = true ->
  package_provided h P V = TCL_ERROR ->
  Generic.Performance_Init P V h calls
  = (TCL_ERROR,
     calls ++ [InitStubs "8.6-" 0;
               CreateNamespace (P ++ "::")%string;
               CreateObjCommand (P ++ "::xor")%string Tcl_xor_cmd;
               PkgProvide P V]).
Proof.
  intros Hs Hn Hp. rewrite Performance_Init_run. by rewrite Hs, Hn, Hp.
Qed.

Lemma Performance_Init_failed_provide_keeps_command_witness :
  Generic.Performance_Init "performance" "1.0.0" refusing_host []
  = (TCL_ERROR,
     [] ++ [InitStubs "8.6-" 0;
            CreateNamespace ("performance" ++ "::")%string;
            CreateObjCommand ("performance" ++ "::xor")%string Tcl_xor_cmd;
            PkgProvide "performance" "1.0.0"]).
Proof.
  apply (Performance_Init_failed_provide_keeps_command
           "performance" "1.0.0" refusing_host []); reflexivity.
Defined.

(** X18: [Tclperformance_Init] provides the package before it creates the
    command, so the command [xor] is created exactly when the function
    returns [TCL_OK]; that is when the stubs for "8.6" are found and the
    package "tclperformance" 0.1 is provided. *)
Theorem Tclperformance_Init_command_iff_ok (h : host) (calls : list api_call) :
  exists new : list api_call,
    snd (Legacy.Tclperformance_Init h calls) = calls ++ new /\
    (In (CreateObjCommand "xor" Tcl_xor_cmd) new
     <-> fst (Legacy.Tclperformance_Init h calls) = TCL_OK) /\
    (fst (Legacy.Tclperformance_Init h calls) = TCL_OK
     <-> stubs_found h "8.6" 0 = true /\
         package_provided h "tclperformance" "0.1" = TCL_OK).
Proof.
  rewrite Tclperformance_Init_run.
  destruct (stubs_found h "8.6" 0); simpl.
  - destruct (package_provided h "tclperformance" "0.1"); simpl.
    + eexists. split; [done |]. split; split; try done.
      intros _. simpl. auto.
    + eexists. split; [done |]. split; split; try done.
      * simpl. intros [? | [? | []]]; discriminate.
      * intros [_ ?]. discriminate.
  - eexists. split; [done |]. split; split; try done.
    + simpl. intros [? | []]. discriminate.
    + intros [? _]. discriminate.
Qed.
